(** * Deck: a shuffleable, drawable collection (src/src/Deck.mts)

    A shallow embedding of the [Deck<T>] class and the properties of its
    operations.

    Modelling choices, all taken from the TypeScript source:
    - a JavaScript array is a mutable object that can be reached through
      several references, so arrays live in a heap ([gmap loc (list T)]) and
      the private field [#cards] holds a location; index 0 is the bottom of
      the deck and the last index is the top;
    - [T | null] is [option T], [None] being [null]; [T] has no
      constraint, so a card can itself be [null]: the class [Nullable]
      tells which values of [T] are, and a value [Some c] with [c] null is
      the same JavaScript value as [None];
    - a [number] used as a count or as an index is an integer ([Z] or
      [nat]); an array created with a length above [2^32 - 1] is a
      [RangeError];
    - a value returned by [Math.random()] is a rational ([Q]) of the
      interval [[0, 1)], and its product with [i + 1] is taken exactly,
      where JavaScript rounds it to a double: the index drawn in a round of
      [shuffle] can differ by one from the one the model draws, so the
      theorems about [shuffle] are those that hold for the rounded product
      as well: they do not say which index of [[0, i]] a given value
      draws, except where rounding cannot change it;
    - a method is a computation in a state and exception monad over the
      heap and the random source;
    - a freshly built array that a method returns ([slice], [filter],
      spread) is returned as a value, since nothing else refers to it. *)

From Stdlib Require Import QArith Qround Lqa.
From stdpp Require Import gmap strings list.

Local Open Scope Z_scope.

(** ** Heap, random source and the monad of methods *)

Definition loc := positive.

(** [new Error(message)], which the class throws itself, and the
    [RangeError] of the language, whose message is the engine's. *)
Inductive exn : Type :=
  | Error (message : string)
  | RangeError.

(** The values of [T] that are [null]. *)
Class Nullable (T : Type) : Type := is_null : T -> bool.

(** A number is not [null]. *)
#[export] Instance Z_nullable : Nullable Z := fun _ => false.

(** [X | null] as a type of cards: [None] is [null]. *)
#[export] Instance option_nullable {X : Type} : Nullable (option X) :=
  fun c => match c with None => true | Some _ => false end.

(** How a call ends: it returns, it throws, or it leaves the model ([Stuck]:
    a dangling reference or an array access out of range, where JavaScript
    would read [undefined] or grow the array with holes). *)
Inductive outcome (A : Type) : Type :=
  | Return (a : A)
  | Throw (e : exn)
  | Stuck.
Arguments Return {A} a.
Arguments Throw {A} e.
Arguments Stuck {A}.

Section Deck.
Context {T : Type} `{Nullable T}.

(** [entropy k] is the value of the [k]-th call of [Math.random()];
    [calls] counts the calls made so far. *)
Record world : Type := World {
  heap : gmap loc (list T);
  entropy : nat -> Q;
  calls : nat
}.

Definition M (A : Type) : Type := world -> outcome A * world.

Definition ret {A : Type} (a : A) : M A := fun w => (Return a, w).

Definition bind {A B : Type} (m : M A) (k : A -> M B) : M B :=
  fun w =>
    match m w with
    | (Return a, w') => k a w'
    | (Throw e, w') => (Throw e, w')
    | (Stuck, w') => (Stuck, w')
    end.

Definition throw {A : Type} (e : exn) : M A := fun w => (Throw e, w).

Definition stuck {A : Type} : M A := fun w => (Stuck, w).

Notation "'let*' x ':=' m 'in' k" := (bind m (fun x => k))
  (at level 10, x name, m at level 100, k at level 200).
Notation "m ';;' k" := (bind m (fun _ => k))
  (at level 100, k at level 200, right associativity).

Definition set_cells (l : loc) (cs : list T) (w : world) : world :=
  {| heap := <[l := cs]> (heap w); entropy := entropy w; calls := calls w |}.

Definition read (l : loc) : M (list T) :=
  fun w =>
    match heap w !! l with
    | Some cs => (Return cs, w)
    | None => (Stuck, w)
    end.

Definition write (l : loc) (cs : list T) : M unit :=
  fun w => (Return tt, set_cells l cs w).

(** A new array object, at a location nothing refers to yet. *)
Definition alloc (cs : list T) : M loc :=
  fun w => let l := fresh (dom (heap w)) in (Return l, set_cells l cs w).

(** [Math.random()]. *)
Definition Math_random : M Q :=
  fun w =>
    (Return (entropy w (calls w)),
     {| heap := heap w; entropy := entropy w; calls := S (calls w) |}).

(** [Math.floor]. *)
Definition Math_floor (q : Q) : Z := Qfloor q.

(** ** Array primitives *)

(** [a.length] *)
Definition Array_length (a : loc) : M nat :=
  let* cs := read a in ret (length cs).

(** [a.pop()]: [None] stands for the [undefined] of an empty array. *)
Definition Array_pop (a : loc) : M (option T) :=
  let* cs := read a in
  match last cs with
  | Some c => write a (removelast cs) ;; ret (Some c)
  | None => ret None
  end.

(** [a.at(-1)] *)
Definition Array_at_last (a : loc) : M (option T) :=
  let* cs := read a in ret (last cs).

(** [a.slice(start)]: a negative [start] counts from the end, and both
    cases are clamped to the array. *)
Definition Array_slice (a : loc) (start : Z) : M (list T) :=
  let* cs := read a in
  let len := Z.of_nat (length cs) in
  let k := if decide (start < 0) then Z.max (len + start) 0
           else Z.min start len in
  ret (drop (Z.to_nat k) cs).

(** [a.push(x)] *)
Definition Array_push (a : loc) (x : T) : M unit :=
  let* cs := read a in write a (cs ++ [x]).

(** [a.unshift(x)] *)
Definition Array_unshift (a : loc) (x : T) : M unit :=
  let* cs := read a in write a (x :: cs).

(** [a.filter(f)] for a pure callback. *)
Definition Array_filter (a : loc) (f : T -> bool) : M (list T) :=
  let* cs := read a in ret (List.filter f cs).

(** [a[k]] *)
Definition Array_get (a : loc) (k : Z) : M T :=
  let* cs := read a in
  if decide (0 <= k) then
    match cs !! Z.to_nat k with
    | Some c => ret c
    | None => stuck
    end
  else stuck.

(** [a[k] = c] *)
Definition Array_set (a : loc) (k : Z) (c : T) : M unit :=
  let* cs := read a in
  if decide (0 <= k < Z.of_nat (length cs)) then
    write a (<[Z.to_nat k := c]> cs)
  else stuck.

(** [f] called [n] times, the results in the order of the calls. *)
Fixpoint repeatM {A : Type} (n : nat) (f : M A) : M (list A) :=
  match n with
  | O => ret []
  | S n' => let* x := f in let* xs := repeatM n' f in ret (x :: xs)
  end.

(** The greatest length of an array, [2^32 - 1]. *)
Definition max_array_length : Z := 4294967295.

(** [Array.from({ length: count }, f)]: the array is created first, which
    is a [RangeError] for a length above [max_array_length]; then [f] is
    called [count] times, for the indices 0, 1, ... in this order. *)
Definition Array_from_length {A : Type} (count : Z) (f : M A) : M (list A) :=
  if decide (max_array_length < count) then throw RangeError
  else repeatM (Z.to_nat count) f.

(** [v === null] for a value [v] of type [T | null]. *)
Definition js_null (v : option T) : bool :=
  match v with
  | Some c => is_null c
  | None => true
  end.

(** [xs.filter((c) => c !== null)] *)
Definition filter_not_null (xs : list (option T)) : list T :=
  omap (fun v => if js_null v then None else v) xs.

(** The cards of [cs] that are not [null], in their order. *)
Definition without_nulls (cs : list T) : list T :=
  List.filter (fun c => negb (is_null c)) cs.

(** No card of [cs] is [null]. *)
Definition no_null (cs : list T) : Prop :=
  Forall (fun c => is_null c = false) cs.

(** ** The class *)

Record Deck : Type := { cards : loc }.

(** [constructor(cards: T[] = [])], called with an argument: the field
    holds the very array it was given. *)
Definition new_Deck (cs : loc) : Deck := {| cards := cs |}.

(** [new Deck()]: the default argument is a new empty array. *)
Definition new_Deck_default : M Deck :=
  let* cs := alloc [] in ret (new_Deck cs).

Definition draw (this : Deck) : M (option T) :=
  let* n := Array_length (cards this) in
  if decide (n = 0%nat) then ret None
  else Array_pop (cards this).

Definition count_error : exn := Error "Count must be non-negative".

Definition drawMany (this : Deck) (count : Z) : M (list T) :=
  if decide (count < 0) then throw count_error
  else
    let* drawn := Array_from_length count (draw this) in
    ret (filter_not_null drawn).

Definition peek (this : Deck) : M (option T) :=
  let* n := Array_length (cards this) in
  if decide (n = 0%nat) then ret None
  else Array_at_last (cards this).

Definition peekMany (this : Deck) (count : Z) : M (list T) :=
  if decide (count < 0) then throw count_error
  else Array_slice (cards this) (- count).

Definition placeOnTop (this : Deck) (card : T) : M unit :=
  Array_push (cards this) card.

Definition placeOnBottom (this : Deck) (card : T) : M unit :=
  Array_unshift (cards this) card.

(** [remove] gives [#cards] a new array, so the deck object changes: the
    method returns the deck with its new field. *)
Definition remove (this : Deck) (predicate : T -> bool) : M Deck :=
  let* kept := Array_filter (cards this) (fun card => negb (predicate card)) in
  let* cs := alloc kept in
  ret {| cards := cs |}.

Definition isEmpty (this : Deck) : M bool :=
  let* n := Array_length (cards this) in ret (bool_decide (n = 0%nat)).

Definition size (this : Deck) : M nat := Array_length (cards this).

Definition toList (this : Deck) : M (list T) := read (cards this).

(** One round of the loop of [shuffle]:
    [[a[i], a[j]] = [a[j], a[i]]] reads [a[j]] and [a[i]], then assigns
    [a[i]] and [a[j]]. *)
Definition swap_cells (a : loc) (i j : Z) : M unit :=
  let* cj := Array_get a j in
  let* ci := Array_get a i in
  Array_set a i cj ;;
  Array_set a j ci.

(** [for (let i = ...; i > 0; i--) { ... }] from a given [i]. *)
Fixpoint shuffle_from (this : Deck) (i : nat) : M unit :=
  match i with
  | O => ret tt
  | S i' =>
      let* r := Math_random in
      let j := Math_floor (r * inject_Z (Z.of_nat i + 1)) in
      swap_cells (cards this) (Z.of_nat i) j ;;
      shuffle_from this i'
  end.

(** The loop starts at [length - 1]; on an empty deck that is -1 and the
    loop does not run, as with the truncated subtraction here. *)
Definition shuffle (this : Deck) : M unit :=
  let* n := Array_length (cards this) in
  shuffle_from this (n - 1)%nat.

(** ** The generator [*[Symbol.iterator]()]

    The body runs only when [next()] is called. The first call reads
    [#cards.length] into [i]; the generator is then suspended at the
    [yield] inside the loop with the current [i], and each later call runs
    [i--] and the test [i > 0] before the next [draw]. *)
Inductive generator : Type :=
  | NotStarted
  | Suspended (i : nat)
  | Done.

(** The test [i > 0] and, when it holds, the body [yield this.draw()]:
    the generator yields whatever [draw] returned and is suspended with the
    current [i]. The first component of the result is [Some v] for
    [{ value: v, done: false }] and [None] for [{ done: true }]. *)
Definition enter_loop (this : Deck) (i : nat)
  : M (option (option T) * generator) :=
  if decide (0 < i)%nat then
    let* v := draw this in ret (Some v, Suspended i)
  else ret (None, Done).

Definition next (this : Deck) (g : generator)
  : M (option (option T) * generator) :=
  match g with
  | NotStarted =>
      let* n := Array_length (cards this) in enter_loop this n
  | Suspended i => enter_loop this (i - 1)%nat
  | Done => ret (None, Done)
  end.

(** The generator has not run yet, or it is suspended in the round that
    drew the card above the [n] remaining ones. *)
Definition in_step (g : generator) (n : nat) : Prop :=
  g = NotStarted \/ g = Suspended (S n).

(** Consuming the deck ([for ... of], spread): a new generator, and
    [next()] until it is done. [fuel] bounds the number of calls; running
    out of it is [Stuck]. *)
Fixpoint consume (fuel : nat) (this : Deck) (g : generator)
  : M (list (option T)) :=
  match fuel with
  | O => stuck
  | S fuel' =>
      let* r := next this g in
      match r with
      | (Some v, g') => let* vs := consume fuel' this g' in ret (v :: vs)
      | (None, _) => ret []
      end
  end.

Definition iterate (fuel : nat) (this : Deck) : M (list (option T)) :=
  consume fuel this NotStarted.

(** ** Operations that Deck.mts does not contain

    Deck.test.mts calls [pull], [pullMany] and [pullAll], and the
    specification describes them, but the class in Deck.mts has no such
    methods. *)

(** The index of the first card from the top that satisfies [predicate],
    among the indices below [i]. *)
Fixpoint scan_from_top (predicate : T -> bool) (cs : list T) (i : nat)
  : option nat :=
  match i with
  | O => None
  | S k =>
      match cs !! k with
      | Some c => if predicate c then Some k
                  else scan_from_top predicate cs k
      | None => scan_from_top predicate cs k
      end
  end.

(** Modelled from the spec: [pull(predicate)], which is missing from
    Deck.mts. It scans from the top (the highest index) toward the bottom,
    removes and returns the first card for which [predicate] is true, and
    returns the empty sentinel, removing nothing, if there is none. *)
Definition pull (this : Deck) (predicate : T -> bool) : M (option T) :=
  let* cs := read (cards this) in
  match scan_from_top predicate cs (length cs) with
  | Some k => write (cards this) (delete k cs) ;; ret (cs !! k)
  | None => ret None
  end.

(** [pull] called again and again, until it returns the empty sentinel.
    [fuel] bounds the number of calls; running out of it is [Stuck]. *)
Fixpoint pull_until_exhausted (fuel : nat) (this : Deck)
    (predicate : T -> bool) : M (list T) :=
  match fuel with
  | O => stuck
  | S fuel' =>
      let* c := pull this predicate in
      match c with
      | Some c =>
          let* rest := pull_until_exhausted fuel' this predicate in
          ret (c :: rest)
      | None => ret []
      end
  end.

(** Modelled from the spec: [pullAll(predicate)], which is missing from
    Deck.mts. It is [pull] repeated until it finds nothing, the pulled
    cards collected in the order they are pulled. Every successful [pull]
    removes a card, so one more call than there are cards is enough. *)
Definition pullAll (this : Deck) (predicate : T -> bool) : M (list T) :=
  let* n := size this in
  pull_until_exhausted (S n) this predicate.

(** No card of [cs] satisfies [predicate]. *)
Definition rejects (predicate : T -> bool) (cs : list T) : Prop :=
  Forall (fun c => predicate c = false) cs.

(** ** Fisher-Yates, in the words of the specification

    "Iterate index [i] from [length - 1] down to [1]; draw a random integer
    [j] in [[0, i]]; swap elements at [i] and [j]." [pick i] is the integer
    drawn for the index [i]. *)
Definition swap (i j : nat) (cs : list T) : list T :=
  match cs !! i, cs !! j with
  | Some ci, Some cj => <[j := ci]> (<[i := cj]> cs)
  | _, _ => cs
  end.

Definition fisher_yates (pick : nat -> nat) (cs : list T) : list T :=
  foldl (fun acc i => swap i (pick i) acc) cs
        (reverse (seq 1 (length cs - 1))).

(** The integer that a value [r] of the random source gives at index [i]. *)
Definition drawn_index (r : Q) (i : nat) : Z :=
  Math_floor (r * inject_Z (Z.of_nat i + 1)).

(** The deck [this] holds the cards [cs], bottom first. *)
Definition holds (this : Deck) (cs : list T) (w : world) : Prop :=
  heap w !! cards this = Some cs.

(** The values of [Math.random()] lie in [[0, 1)]. *)
Definition unit_interval (r : Q) : Prop := (0 <= r)%Q /\ (r < 1)%Q.

End Deck.

Arguments world T : clear implicits.
Arguments M T A : clear implicits.

(** The index drawn for the round [i] of the loop of [shuffle], when the
    loop starts at the index [top] after [first] calls of [Math.random()]:
    the rounds [top], [top - 1], ... use the calls [first], [first + 1],
    ... in this order. *)
Definition picked (e : nat -> Q) (first top i : nat) : Z :=
  drawn_index (e (first + (top - i))%nat) i.

(** ** Concrete decks of integers *)

Definition table (cs : list Z) : world Z :=
  {| heap := {[ 1%positive := cs ]};
     entropy := fun _ => (1 # 2)%Q;
     calls := 0 |}.

Definition the_deck : Deck := new_Deck 1%positive.

(** A deck of [number | null]. *)
Definition nullable_table (cs : list (option Z)) : world (option Z) :=
  {| heap := {[ 1%positive := cs ]};
     entropy := fun _ => (1 # 2)%Q;
     calls := 0 |}.

Definition even (c : Z) : bool := c mod 2 =? 0.

(** ** Running the primitives *)

Lemma bind_Return {T A B : Type} (m : M T A) (k : A -> M T B)
    (w : world T) (a : A) (w' : world T) :
  m w = (Return a, w') -> bind m k w = k a w'.
Proof. intros Hm. unfold bind. now rewrite Hm. Qed.

(** Run the first computation of a [bind] with the equation [H] that gives
    its result. *)
Tactic Notation "run_bind" uconstr(H) :=
  rewrite (bind_Return _ _ _ _ _ H).

Section Properties.
Context {T : Type} `{Nullable T}.
Implicit Types (w : world T) (this : Deck) (cs : list T) (l : loc).

Lemma read_holds l cs w :
  heap w !! l = Some cs -> read l w = (Return cs, w).
Proof. intros Hl. unfold read. now rewrite Hl. Qed.

Lemma set_cells_twice l cs cs' w :
  set_cells l cs' (set_cells l cs w) = set_cells l cs' w.
Proof. unfold set_cells; simpl. now rewrite insert_insert_eq. Qed.

Lemma set_cells_same l cs w :
  heap w !! l = Some cs -> set_cells l cs w = w.
Proof.
  intros Hl. destruct w as [h e c]; unfold set_cells; simpl in *.
  now rewrite (insert_id h l cs Hl).
Qed.

Lemma holds_set_cells this cs w :
  holds this cs (set_cells (cards this) cs w).
Proof. unfold holds, set_cells; simpl. apply lookup_insert_eq. Qed.

Lemma size_holds this cs w :
  holds this cs w -> size this w = (Return (length cs), w).
Proof.
  intros Hc. unfold size, Array_length.
  now run_bind (read_holds _ _ _ Hc).
Qed.

(** ** [draw] *)

Lemma draw_empty this w :
  holds this [] w -> draw this w = (Return None, w).
Proof.
  intros Hc. unfold draw.
  run_bind (size_holds _ _ _ Hc). reflexivity.
Qed.

Lemma draw_top this cs c w :
  holds this (cs ++ [c]) w ->
  draw this w = (Return (Some c), set_cells (cards this) cs w).
Proof.
  intros Hc. unfold draw.
  run_bind (size_holds _ _ _ Hc).
  destruct (decide (length (cs ++ [c]) = 0%nat)) as [Hlen | _].
  { rewrite length_app in Hlen; simpl in Hlen; lia. }
  unfold Array_pop.
  run_bind (read_holds _ _ _ Hc).
  rewrite last_snoc, removelast_last. reflexivity.
Qed.

(** [count] calls of [draw] on a deck whose cards are [top_first], top
    card first: the cards come out in this order, then [null]s. *)
Lemma repeat_draw this (n : nat) : forall top_first w,
  holds this (reverse top_first) w ->
  repeatM n (draw this) w =
    (Return ((Some <$> take n top_first)
             ++ replicate (n - length top_first) None),
     set_cells (cards this) (reverse (drop n top_first)) w).
Proof.
  induction n as [| n IH]; intros top_first w Hc.
  - simpl. rewrite drop_0, (set_cells_same _ _ _ Hc). reflexivity.
  - destruct top_first as [| c rest].
    + simpl in *. run_bind (draw_empty _ _ Hc).
      run_bind (IH [] w Hc).
      rewrite take_nil, drop_nil, Nat.sub_0_r. reflexivity.
    + rewrite reverse_cons in Hc. simpl.
      run_bind (draw_top _ _ _ _ Hc).
      run_bind (IH rest _ (holds_set_cells this (reverse rest) w)).
      rewrite set_cells_twice. reflexivity.
Qed.

(** The filter of [drawMany] drops the [null]s of an empty deck and the
    cards that are [null]. *)
Lemma filter_not_null_draws (xs : list T) (k : nat) :
  filter_not_null ((Some <$> xs) ++ replicate k None) = without_nulls xs.
Proof.
  unfold filter_not_null, without_nulls.
  induction xs as [| x xs IHxs]; simpl.
  - induction k as [| k IHk]; [reflexivity | exact IHk].
  - destruct (is_null x); simpl; [exact IHxs | f_equal; exact IHxs].
Qed.

Lemma without_nulls_no_null cs : no_null cs -> without_nulls cs = cs.
Proof.
  unfold no_null, without_nulls.
  induction 1 as [| c cs Hc _ IH]; simpl; [reflexivity |].
  rewrite Hc. simpl. now rewrite IH.
Qed.

Lemma no_null_top cs (k : nat) :
  no_null cs -> no_null (reverse (drop k cs)).
Proof. unfold no_null. intros Hcs. now apply Forall_reverse, Forall_drop. Qed.

(** What [drawMany] does for a count that is not negative and not above
    the greatest length of an array: the cards drawn leave the deck, and
    those that are [null] are left out of the result. *)
Lemma drawMany_run this cs w (n : Z) :
  holds this cs w -> 0 <= n <= max_array_length ->
  drawMany this n w =
    (Return (without_nulls (reverse (drop (length cs - Z.to_nat n) cs))),
     set_cells (cards this) (take (length cs - Z.to_nat n) cs) w).
Proof.
  intros Hc Hn. unfold drawMany.
  destruct (decide (n < 0)) as [Hneg | _]; [lia |].
  unfold Array_from_length.
  destruct (decide (max_array_length < n)) as [Hbig | _]; [lia |].
  rewrite <- (reverse_involutive cs) in Hc.
  run_bind (repeat_draw this _ _ _ Hc).
  unfold ret. rewrite filter_not_null_draws.
  rewrite take_reverse, drop_reverse, reverse_involutive. reflexivity.
Qed.

(** For a count above the greatest length of an array, [Array.from]
    throws before any card is drawn. *)
Lemma drawMany_too_many this w (n : Z) :
  max_array_length < n -> drawMany this n w = (Throw RangeError, w).
Proof.
  intros Hn. unfold drawMany, Array_from_length.
  destruct (decide (n < 0)) as [Hneg | _];
    [unfold max_array_length in Hn; lia |].
  destruct (decide (max_array_length < n)) as [_ | Hsmall]; [| lia].
  reflexivity.
Qed.

(** What [peekMany] does for a count that is not negative: [slice(-0)] is
    [slice(0)], the whole array. *)
Lemma peekMany_run this cs w (n : Z) :
  holds this cs w -> 0 <= n ->
  peekMany this n w =
    (Return (if decide (n = 0) then cs
             else drop (length cs - Z.to_nat n) cs), w).
Proof.
  intros Hc Hn. unfold peekMany.
  destruct (decide (n < 0)) as [Hneg | _]; [lia |].
  unfold Array_slice.
  run_bind (read_holds _ _ _ Hc).
  unfold ret. do 2 f_equal.
  destruct (decide (n = 0)) as [-> | Hpos].
  - destruct (decide (- 0 < 0)) as [Hlt | _]; [lia |].
    now replace (Z.to_nat (Z.min (- 0) (Z.of_nat (length cs)))) with 0%nat
      by lia.
  - destruct (decide (- n < 0)) as [_ | Hge]; [| lia].
    f_equal. lia.
Qed.

(** ** Theorems about [drawMany] and [peekMany] *)


(** C1, as the code has it: for a deck holding [cs] and a count [n > 0],
    [peekMany(n)] returns the last [min(n, |cs|)] cards in the order they
    are stored (bottom to top, the top card last) and leaves the deck
    unchanged; when no card of the deck is [null] and [n <= 2^32 - 1],
    this is the reverse of what [drawMany(n)] returns on the same deck. *)
Theorem peekMany_shows_the_top this cs w (n : Z) :
  holds this cs w -> 0 < n ->
  let k := Nat.min (Z.to_nat n) (length cs) in
  peekMany this n w = (Return (drop (length cs - k) cs), w)
  /\ (no_null cs -> n <= max_array_length ->
      fst (drawMany this n w)
      = Return (reverse (drop (length cs - k) cs))).
Proof.
  intros Hc Hn k.
  rewrite (peekMany_run this cs w n Hc) by lia.
  replace (length cs - k)%nat with (length cs - Z.to_nat n)%nat
    by (unfold k; lia).
  destruct (decide (n = 0)) as [Hz | _]; [lia |].
  split; [reflexivity |].
  intros Hnn Hmax.
  rewrite (drawMany_run this cs w n Hc) by lia.
  now rewrite (without_nulls_no_null _ (no_null_top cs _ Hnn)).
Qed.

(** C6, as the code has it: for every state and every negative count,
    [drawMany] and [peekMany] throw an [Error] whose message is
    "Count must be non-negative", and the state is the one before the
    call. *)
Theorem negative_count_is_rejected this w (c : Z) :
  c < 0 ->
  drawMany this c w = (Throw (Error "Count must be non-negative"), w)
  /\ peekMany this c w = (Throw (Error "Count must be non-negative"), w).
Proof.
  intros Hc. unfold drawMany, peekMany.
  destruct (decide (c < 0)) as [_ | Hge]; [| lia].
  split; reflexivity.
Qed.

End Properties.

(** ** The theorems at concrete decks *)



Lemma peekMany_shows_the_top_witness :
  holds the_deck [1; 2; 3] (table [1; 2; 3]) /\ 0 < 2 /\
  peekMany the_deck 2 (table [1; 2; 3]) = (Return [2; 3], table [1; 2; 3]).
Proof.
  assert (Hc : holds the_deck [1; 2; 3] (table [1; 2; 3])) by reflexivity.
  assert (Hn : 0 < 2) by lia.
  split; [exact Hc | split; [exact Hn |]].
  exact (proj1 (peekMany_shows_the_top
                  the_deck [1; 2; 3] (table [1; 2; 3]) 2 Hc Hn)).
Defined.

(** C1 as stated fails: on the deck [1; 2], [peekMany(2)] returns [1; 2]
    and [drawMany(2)] returns [2; 1]. *)
Lemma peekMany_differs_from_drawMany :
  fst (peekMany the_deck 2 (table [1; 2])) = Return [1; 2]
  /\ fst (drawMany the_deck 2 (table [1; 2])) = Return [2; 1]
  /\ fst (peekMany the_deck 2 (table [1; 2]))
     <> fst (drawMany the_deck 2 (table [1; 2])).
Proof.
  split; [reflexivity | split; [reflexivity |]].
  vm_compute. intros Heq. discriminate Heq.
Qed.

(** [peekMany(0)] returns the whole deck, where the test "returns empty
    list when count is 0" expects the empty list. *)
Example peekMany_zero_returns_all :
  peekMany the_deck 0 (table [1; 2]) = (Return [1; 2], table [1; 2]).
Proof. reflexivity. Qed.

Lemma negative_count_is_rejected_witness :
  -1 < 0 /\
  drawMany the_deck (-1) (table [1; 2]) =
    (Throw (Error "Count must be non-negative"), table [1; 2])
  /\ peekMany the_deck (-1) (table [1; 2]) =
    (Throw (Error "Count must be non-negative"), table [1; 2]).
Proof.
  assert (Hc : -1 < 0) by lia.
  split; [exact Hc |].
  exact (negative_count_is_rejected the_deck (table [1; 2]) (-1) Hc).
Defined.

(** C6 as stated fails: the message thrown is not the lower-case
    "count must be non-negative". *)
Lemma negative_count_message_is_capitalised :
  ~ (drawMany the_deck (-1) (table [1; 2]) =
       (Throw (Error "count must be non-negative"), table [1; 2])
     /\ peekMany the_deck (-1) (table [1; 2]) =
       (Throw (Error "count must be non-negative"), table [1; 2])).
Proof.
  intros [Hdraw _]. vm_compute in Hdraw. discriminate Hdraw.
Qed.

(** ** [shuffle] *)

Section Shuffle.
Context {T : Type}.
Implicit Types (w : world T) (this : Deck) (cs : list T) (l : loc).

Lemma floor_cell (x : Q) (k : Z) :
  Math_floor x = k <-> (inject_Z k <= x /\ x < inject_Z (k + 1))%Q.
Proof.
  unfold Math_floor. split.
  - intros <-. split; [apply Qfloor_le | apply Qlt_floor].
  - intros [Hlo Hhi].
    assert (Hge : k <= Qfloor x).
    { rewrite <- (Qfloor_Z k). now apply Qfloor_resp_le. }
    assert (Hlt : Qfloor x < k + 1).
    { rewrite Zlt_Qlt. eapply Qle_lt_trans; [apply Qfloor_le | exact Hhi]. }
    lia.
Qed.

Lemma slots_positive (i : nat) : (0 < inject_Z (Z.of_nat i + 1))%Q.
Proof. change 0%Q with (inject_Z 0). rewrite <- Zlt_Qlt. lia. Qed.

(** A value of [[0, 1)] is sent to an index of [[0, i]]. *)
Lemma drawn_index_range (r : Q) (i : nat) :
  unit_interval r -> 0 <= drawn_index r i <= Z.of_nat i.
Proof.
  intros [Hlo Hhi]. unfold drawn_index.
  pose proof (slots_positive i) as Hd.
  assert (Hcell := proj1 (floor_cell (r * inject_Z (Z.of_nat i + 1)) _)
                     eq_refl).
  destruct Hcell as [Hfl Hfu].
  split.
  - assert (H0 : (inject_Z 0 <= r * inject_Z (Z.of_nat i + 1))%Q).
    { apply Qmult_le_0_compat; [exact Hlo | now apply Qlt_le_weak]. }
    apply Qfloor_resp_le in H0. now rewrite Qfloor_Z in H0.
  - assert (Hup : (r * inject_Z (Z.of_nat i + 1)
                   < inject_Z (Z.of_nat i + 1))%Q).
    { rewrite <- (Qmult_1_l (inject_Z (Z.of_nat i + 1))) at 2.
      now apply Qmult_lt_compat_r. }
    assert (Hlt : (inject_Z (Math_floor (r * inject_Z (Z.of_nat i + 1)))
                   < inject_Z (Z.of_nat i + 1))%Q)
      by (eapply Qle_lt_trans; [exact Hfl | exact Hup]).
    rewrite <- Zlt_Qlt in Hlt. lia.
Qed.

Lemma Array_get_run l cs w (k : Z) (c : T) :
  heap w !! l = Some cs -> 0 <= k -> cs !! Z.to_nat k = Some c ->
  Array_get l k w = (Return c, w).
Proof.
  intros Hl Hk Hc. unfold Array_get.
  run_bind (read_holds _ _ _ Hl).
  destruct (decide (0 <= k)) as [_ | Hneg]; [| lia].
  now rewrite Hc.
Qed.

Lemma Array_set_run l cs w (k : Z) (c : T) :
  heap w !! l = Some cs -> 0 <= k < Z.of_nat (length cs) ->
  Array_set l k c w = (Return tt, set_cells l (<[Z.to_nat k := c]> cs) w).
Proof.
  intros Hl Hk. unfold Array_set.
  run_bind (read_holds _ _ _ Hl).
  destruct (decide (0 <= k < Z.of_nat (length cs))) as [_ | Hout]; [| lia].
  reflexivity.
Qed.

(** The destructuring assignment, inside the array, is [swap]. *)
Lemma swap_cells_run l cs w (i : nat) (j : Z) :
  heap w !! l = Some cs -> (i < length cs)%nat -> 0 <= j <= Z.of_nat i ->
  swap_cells l (Z.of_nat i) j w =
    (Return tt, set_cells l (swap i (Z.to_nat j) cs) w).
Proof.
  intros Hl Hi Hj.
  destruct (lookup_lt_is_Some_2 cs i Hi) as [ci Hci].
  destruct (lookup_lt_is_Some_2 cs (Z.to_nat j) ltac:(lia)) as [cj Hcj].
  unfold swap_cells, swap. rewrite Hci, Hcj.
  run_bind (Array_get_run l cs w j cj Hl ltac:(lia) Hcj).
  assert (Hci' : cs !! Z.to_nat (Z.of_nat i) = Some ci)
    by now rewrite Nat2Z.id.
  run_bind (Array_get_run l cs w (Z.of_nat i) ci Hl ltac:(lia) Hci').
  run_bind (Array_set_run l cs w (Z.of_nat i) cj Hl ltac:(lia)).
  rewrite Nat2Z.id.
  assert (Hl' : heap (set_cells l (<[i := cj]> cs) w) !! l
                = Some (<[i := cj]> cs))
    by (unfold set_cells; simpl; apply lookup_insert_eq).
  rewrite (Array_set_run l _ _ j ci Hl')
    by (rewrite length_insert; lia).
  now rewrite set_cells_twice.
Qed.

Lemma length_swap (i j : nat) cs : length (swap i j cs) = length cs.
Proof.
  unfold swap. destruct (cs !! i), (cs !! j); try reflexivity.
  now rewrite !length_insert.
Qed.

(** The loop of [shuffle] from the index [i], in a run that started at the
    index [top] after [first] calls of [Math.random()]. *)
Lemma shuffle_from_run this (first top : nat) (i : nat) : forall w cs,
  holds this cs w -> (i < length cs)%nat -> (i <= top)%nat ->
  calls w = (first + (top - i))%nat ->
  (forall k, unit_interval (entropy w k)) ->
  shuffle_from this i w =
    (Return tt,
     {| heap := <[cards this :=
                   foldl (fun acc x =>
                            swap x (Z.to_nat (picked (entropy w) first top x))
                                 acc)
                         cs (reverse (seq 1 i))]> (heap w);
        entropy := entropy w;
        calls := (first + top)%nat |}).
Proof.
  induction i as [| i IH]; intros w cs Hc Hi Htop Hcalls Hunit.
  - simpl. unfold ret. f_equal.
    destruct w as [h e c]; simpl in *.
    rewrite (insert_id h _ _ Hc). f_equal. lia.
  - cbn [shuffle_from].
    set (w1 := {| heap := heap w; entropy := entropy w;
                  calls := S (calls w) |}).
    assert (Hrand : Math_random w = (Return (entropy w (calls w)), w1))
      by reflexivity.
    run_bind Hrand.
    pose proof (drawn_index_range _ (S i) (Hunit (calls w))) as Hj.
    unfold drawn_index in Hj.
    assert (Hc1 : heap w1 !! cards this = Some cs) by exact Hc.
    run_bind (swap_cells_run _ _ _ (S i) _ Hc1 Hi Hj).
    rewrite (IH _ _ (holds_set_cells this _ w1));
      [| rewrite length_swap; lia | lia | simpl; lia | exact Hunit].
    subst w1. unfold set_cells. cbn [heap entropy calls].
    rewrite seq_S, reverse_snoc. cbn [foldl].
    rewrite insert_insert_eq. change (1 + i)%nat with (S i).
    assert (Hpick : picked (entropy w) first top (S i) =
                    Math_floor (entropy w (calls w)
                                * inject_Z (Z.of_nat (S i) + 1)))
      by (unfold picked, drawn_index; now rewrite <- Hcalls).
    now rewrite Hpick.
Qed.

Lemma swap_Permutation (i j : nat) cs : swap i j cs ≡ₚ cs.
Proof.
  unfold swap.
  destruct (cs !! i) as [ci |] eqn:Hi; [| reflexivity].
  destruct (cs !! j) as [cj |] eqn:Hj; [| reflexivity].
  pose proof (lookup_lt_Some _ _ _ Hi) as Hilt.
  pose proof (lookup_lt_Some _ _ _ Hj) as Hjlt.
  apply Permutation_inj. split; [now rewrite !length_insert |].
  exists (fun x => if decide (x = i) then j
                   else if decide (x = j) then i else x).
  split.
  - intros x y Hxy. repeat case_decide; congruence.
  - intros x. destruct (decide (x = j)) as [-> | Hxj].
    + rewrite list_lookup_insert_eq by (rewrite length_insert; exact Hjlt).
      destruct (decide (j = i)) as [-> | _]; congruence.
    + rewrite list_lookup_insert_ne by congruence.
      destruct (decide (x = i)) as [-> | Hxi].
      * rewrite list_lookup_insert_eq by exact Hilt. congruence.
      * now rewrite list_lookup_insert_ne by congruence.
Qed.

Lemma swaps_Permutation (pick : nat -> nat) (rounds : list nat) :
  forall cs, foldl (fun acc i => swap i (pick i) acc) cs rounds ≡ₚ cs.
Proof.
  induction rounds as [| i rounds IH]; intros cs; simpl.
  - reflexivity.
  - rewrite IH. apply swap_Permutation.
Qed.

(** [shuffle] on a deck that holds [cs], with the world it leaves. *)
Lemma shuffle_run this cs w :
  holds this cs w -> (forall k, unit_interval (entropy w k)) ->
  shuffle this w =
    (Return tt,
     {| heap := <[cards this :=
                   fisher_yates
                     (fun i => Z.to_nat (picked (entropy w) (calls w)
                                                (length cs - 1) i))
                     cs]> (heap w);
        entropy := entropy w;
        calls := (calls w + (length cs - 1))%nat |}).
Proof.
  intros Hc Hunit. unfold shuffle, fisher_yates.
  fold (@size T this). run_bind (size_holds _ _ _ Hc).
  destruct cs as [| c cs'].
  - simpl. unfold ret. f_equal.
    destruct w as [h e k]; simpl in *.
    rewrite (insert_id h _ _ Hc). f_equal. lia.
  - apply (shuffle_from_run this (calls w) (length (c :: cs') - 1));
      [exact Hc | simpl; lia | lia | lia | exact Hunit].
Qed.

(** C10: whatever values the random source produces, [shuffle()] returns
    and leaves a deck whose cards are a permutation of the cards before
    the call; [size()] is unchanged. *)
Theorem shuffle_permutes_the_cards this cs w :
  holds this cs w -> (forall k, unit_interval (entropy w k)) ->
  exists cs' w',
    shuffle this w = (Return tt, w')
    /\ holds this cs' w'
    /\ cs' ≡ₚ cs
    /\ size this w' = (Return (length cs), w')
    /\ fst (size this w) = Return (length cs).
Proof.
  intros Hc Hunit.
  eexists _, _. split; [exact (shuffle_run this cs w Hc Hunit) |].
  assert (Hperm : forall pick, fisher_yates pick cs ≡ₚ cs)
    by (intros pick; apply swaps_Permutation).
  split; [unfold holds; simpl; apply lookup_insert_eq |].
  split; [apply Hperm |].
  split.
  - erewrite size_holds by (unfold holds; simpl; apply lookup_insert_eq).
    do 2 f_equal. apply Permutation_length, Hperm.
  - now rewrite (size_holds _ _ _ Hc).
Qed.

End Shuffle.

Lemma table_entropy (cs : list Z) :
  forall k, unit_interval (entropy (table cs) k).
Proof. intros k. unfold unit_interval, Qle, Qlt; simpl. lia. Qed.

Lemma shuffle_permutes_the_cards_witness :
  holds the_deck [1; 2; 3; 4] (table [1; 2; 3; 4])
  /\ (forall k, unit_interval (entropy (table [1; 2; 3; 4]) k))
  /\ exists cs' w',
       shuffle the_deck (table [1; 2; 3; 4]) = (Return tt, w')
       /\ holds the_deck cs' w'
       /\ cs' ≡ₚ [1; 2; 3; 4]
       /\ size the_deck w' = (Return 4%nat, w')
       /\ fst (size the_deck (table [1; 2; 3; 4])) = Return 4%nat.
Proof.
  assert (Hc : holds the_deck [1; 2; 3; 4] (table [1; 2; 3; 4]))
    by reflexivity.
  split; [exact Hc | split; [apply table_entropy |]].
  exact (shuffle_permutes_the_cards
           the_deck [1; 2; 3; 4] (table [1; 2; 3; 4])
           Hc (table_entropy [1; 2; 3; 4])).
Defined.

(** ** The generator *)

Section Iterator.
Context {T : Type}.
Implicit Types (w : world T) (this : Deck) (cs : list T) (g : generator).

Lemma next_in_step this cs w g :
  holds this cs w -> in_step g (length cs) ->
  next this g w = enter_loop this (length cs) w.
Proof.
  intros Hc [-> | ->]; simpl.
  - fold (@size T this).
    now run_bind (size_holds _ _ _ Hc).
  - now rewrite Nat.sub_0_r.
Qed.

Lemma enter_loop_top this cs c w (i : nat) :
  holds this (cs ++ [c]) w -> (0 < i)%nat ->
  enter_loop this i w =
    (Return (Some (Some c), Suspended i), set_cells (cards this) cs w).
Proof.
  intros Hc Hi. unfold enter_loop.
  destruct (decide (0 < i)%nat) as [_ | Hn]; [| lia].
  now run_bind (draw_top _ _ _ _ Hc).
Qed.

(** One call of [next()] on a deck that is not empty yields the top card
    and removes it. *)
Lemma next_yields_top this cs c w g :
  holds this (cs ++ [c]) w -> in_step g (S (length cs)) ->
  next this g w =
    (Return (Some (Some c), Suspended (S (length cs))),
     set_cells (cards this) cs w).
Proof.
  intros Hc Hg.
  assert (Hlen : length (cs ++ [c]) = S (length cs))
    by (rewrite length_app; simpl; lia).
  rewrite <- Hlen in Hg. rewrite (next_in_step this _ w g Hc Hg), Hlen.
  apply enter_loop_top; [exact Hc | lia].
Qed.

(** On an empty deck the generator is done. *)
Lemma next_done this w g :
  holds this [] w -> in_step g 0 -> next this g w = (Return (None, Done), w).
Proof.
  intros Hc Hg. now rewrite (next_in_step this [] w g Hc Hg).
Qed.

Lemma consume_run this (top_first : list T) : forall w g (fuel : nat),
  holds this (reverse top_first) w ->
  in_step g (length top_first) ->
  (length top_first < fuel)%nat ->
  consume fuel this g w =
    (Return (Some <$> top_first), set_cells (cards this) [] w).
Proof.
  induction top_first as [| c rest IH]; intros w g fuel Hc Hg Hfuel;
    (destruct fuel as [| fuel]; [simpl in Hfuel; lia |]); cbn [consume].
  - change (reverse []) with (@nil T) in Hc.
    run_bind (next_done this w g Hc Hg).
    unfold ret. now rewrite (set_cells_same _ _ _ Hc).
  - rewrite reverse_cons in Hc.
    cbn [length] in Hg. rewrite <- (length_reverse rest) in Hg.
    run_bind (next_yields_top this _ c w g Hc Hg).
    run_bind (IH _ (Suspended (S (length (reverse rest)))) fuel
            (holds_set_cells this (reverse rest) w)
            ltac:(right; now rewrite length_reverse)
            ltac:(simpl in Hfuel; lia)).
    now rewrite set_cells_twice.
Qed.

(** C8: draining a deck that holds [cs] through its iterator, nothing else
    touching the deck meanwhile, yields the cards of [cs] from the top to
    the bottom, as many as [size()] reports, and leaves the deck empty;
    each [next()] on a deck that is not empty yields the top card and
    removes it from the deck. *)
Theorem iterate_drains_the_deck this cs w (fuel : nat) :
  holds this cs w -> (length cs < fuel)%nat ->
  iterate fuel this w =
    (Return (Some <$> reverse cs), set_cells (cards this) [] w)
  /\ size this w = (Return (length (Some <$> reverse cs)), w)
  /\ isEmpty this (set_cells (cards this) [] w) =
       (Return true, set_cells (cards this) [] w)
  /\ (forall cs' c w' g,
        holds this (cs' ++ [c]) w' -> in_step g (S (length cs')) ->
        next this g w' =
          (Return (Some (Some c), Suspended (S (length cs'))),
           set_cells (cards this) cs' w')).
Proof.
  intros Hc Hfuel. split; [| split; [| split]].
  - unfold iterate. apply consume_run.
    + now rewrite reverse_involutive.
    + now left.
    + now rewrite length_reverse.
  - rewrite length_fmap, length_reverse. now apply size_holds.
  - unfold isEmpty. fold (@size T this).
    now run_bind (size_holds _ _ _ (holds_set_cells this [] w)).
  - intros cs' c w' g. apply next_yields_top.
Qed.

End Iterator.

Lemma iterate_drains_the_deck_witness :
  holds the_deck [1; 2; 3] (table [1; 2; 3]) /\ (length [1; 2; 3] < 4)%nat
  /\ iterate 4 the_deck (table [1; 2; 3]) =
       (Return [Some 3; Some 2; Some 1],
        set_cells 1%positive [] (table [1; 2; 3])).
Proof.
  assert (Hc : holds the_deck [1; 2; 3] (table [1; 2; 3])) by reflexivity.
  assert (Hfuel : (length [1; 2; 3] < 4)%nat) by (simpl; lia).
  split; [exact Hc | split; [exact Hfuel |]].
  exact (proj1 (iterate_drains_the_deck
                  the_deck [1; 2; 3] (table [1; 2; 3]) 4 Hc Hfuel)).
Defined.

(** ** The operations modelled from the specification *)

Section Pull.
Context {T : Type}.
Implicit Types (w : world T) (this : Deck) (cs : list T) (p : T -> bool).

Lemma scan_finds_topmost p (below : list T) (c : T) (above : list T) :
  p c = true -> rejects p above ->
  forall k : nat,
    scan_from_top p (below ++ c :: above) (S (length below + k))
    = Some (length below).
Proof.
  unfold rejects. intros Hc Habove k. induction k as [| k IH].
  - simpl. rewrite Nat.add_0_r.
    rewrite (list_lookup_middle below above c _ eq_refl). now rewrite Hc.
  - cbn [scan_from_top].
    replace (length below + S k)%nat with (S (length below + k)) by lia.
    destruct ((below ++ c :: above) !! S (length below + k))
      as [x |] eqn:Hx; [| exact IH].
    assert (Hin : above !! k = Some x).
    { rewrite lookup_app_r in Hx by lia.
      replace (S (length below + k) - length below)%nat with (S k) in Hx
        by lia.
      exact Hx. }
    rewrite Forall_lookup in Habove. now rewrite (Habove k x Hin).
Qed.

Lemma scan_finds_nothing p cs (i : nat) :
  rejects p cs -> scan_from_top p cs i = None.
Proof.
  unfold rejects. intros Hcs. induction i as [| i IH]; [reflexivity |].
  cbn [scan_from_top].
  destruct (cs !! i) as [x |] eqn:Hx; [| exact IH].
  rewrite Forall_lookup in Hcs. now rewrite (Hcs i x Hx).
Qed.

(** Either no card matches, or there is a match with none above it. *)
Lemma topmost_match p cs :
  rejects p cs
  \/ exists below c above,
       cs = below ++ c :: above /\ p c = true /\ rejects p above.
Proof.
  unfold rejects. induction cs as [| x cs IH] using rev_ind.
  - left. constructor.
  - destruct (p x) eqn:Hx.
    + right. exists cs, x, []. repeat split; [exact Hx | constructor].
    + destruct IH as [Hnone | (below & c & above & -> & Hc & Habove)].
      * left. apply Forall_app. split; [exact Hnone |].
        constructor; [exact Hx | constructor].
      * right. exists below, c, (above ++ [x]).
        rewrite <- app_assoc. repeat split; [exact Hc |].
        apply Forall_app. split; [exact Habove |].
        constructor; [exact Hx | constructor].
Qed.

Lemma pull_match this p (below : list T) (c : T) (above : list T) w :
  holds this (below ++ c :: above) w ->
  p c = true -> rejects p above ->
  pull this p w =
    (Return (Some c), set_cells (cards this) (below ++ above) w).
Proof.
  intros Hcs Hc Habove. unfold pull.
  run_bind (read_holds _ _ _ Hcs).
  replace (length (below ++ c :: above))
    with (S (length below + length above))
    by (rewrite length_app; simpl; lia).
  rewrite (scan_finds_topmost p below c above Hc Habove).
  rewrite delete_middle.
  now rewrite (list_lookup_middle below above c _ eq_refl).
Qed.

Lemma pull_no_match this p cs w :
  holds this cs w -> rejects p cs -> pull this p w = (Return None, w).
Proof.
  intros Hcs Hnone. unfold pull.
  run_bind (read_holds _ _ _ Hcs).
  now rewrite (scan_finds_nothing p cs _ Hnone).
Qed.

Lemma filter_rejected p cs :
  rejects p cs ->
  List.filter p cs = [] /\ List.filter (fun c => negb (p c)) cs = cs.
Proof.
  unfold rejects.
  induction 1 as [| x cs Hx _ [IHp IHn]]; [split; reflexivity |].
  simpl. rewrite Hx. simpl. now rewrite IHp, IHn.
Qed.

Lemma filter_shorter p cs : (length (List.filter p cs) <= length cs)%nat.
Proof.
  induction cs as [| x cs IH]; simpl; [lia |].
  destruct (p x); simpl; lia.
Qed.

Lemma pull_until_exhausted_run this p (fuel : nat) : forall cs w,
  holds this cs w ->
  (length (List.filter p cs) < fuel)%nat ->
  pull_until_exhausted fuel this p w =
    (Return (reverse (List.filter p cs)),
     set_cells (cards this) (List.filter (fun c => negb (p c)) cs) w).
Proof.
  induction fuel as [| fuel IH]; intros cs w Hcs Hfuel; [lia |].
  cbn [pull_until_exhausted].
  destruct (topmost_match p cs)
    as [Hnone | (below & c & above & -> & Hc & Habove)].
  - run_bind (pull_no_match this p cs w Hcs Hnone).
    destruct (filter_rejected p cs Hnone) as [-> ->].
    unfold ret. now rewrite (set_cells_same _ _ _ Hcs).
  - run_bind (pull_match this p below c above w Hcs Hc Habove).
    destruct (filter_rejected p above Habove) as [Hpa Hna].
    rewrite List.filter_app in Hfuel. simpl in Hfuel.
    rewrite Hc, Hpa, length_app in Hfuel. simpl in Hfuel.
    run_bind (IH (below ++ above) _
            (holds_set_cells this (below ++ above) w)
            ltac:(rewrite List.filter_app, Hpa, length_app;
                  simpl; lia)).
    unfold ret. rewrite set_cells_twice.
    rewrite !List.filter_app. simpl. rewrite Hc, Hpa, Hna. simpl.
    now rewrite app_nil_r, reverse_snoc.
Qed.

(** C3: [pull(predicate)] scans from the top toward the bottom; it removes
    and returns the first card [c] that satisfies the predicate (no card
    above [c] does), the other cards keeping their order; it returns the
    empty sentinel and leaves the deck unchanged when no card matches, in
    particular when the deck is empty. One of the two cases always
    applies. *)
Theorem pull_removes_topmost_match this p cs w :
  holds this cs w ->
  (forall below c above,
     cs = below ++ c :: above -> p c = true -> rejects p above ->
     pull this p w =
       (Return (Some c), set_cells (cards this) (below ++ above) w))
  /\ (rejects p cs -> pull this p w = (Return None, w))
  /\ (cs = [] -> pull this p w = (Return None, w))
  /\ (rejects p cs
      \/ exists below c above,
           cs = below ++ c :: above /\ p c = true /\ rejects p above).
Proof.
  intros Hcs. split; [| split; [| split]].
  - intros below c above -> Hc Habove. now apply pull_match.
  - intros Hnone. now apply (pull_no_match this p cs).
  - intros ->. apply (pull_no_match this p []); [exact Hcs | constructor].
  - apply topmost_match.
Qed.

(** C4: [pullAll(predicate)] removes and returns every card that satisfies
    the predicate, the card nearest to the top first, and the cards that
    do not satisfy it stay in the deck in their order. *)
Theorem pullAll_removes_every_match this p cs w :
  holds this cs w ->
  pullAll this p w =
    (Return (reverse (List.filter p cs)),
     set_cells (cards this) (List.filter (fun c => negb (p c)) cs) w).
Proof.
  intros Hcs. unfold pullAll.
  run_bind (size_holds _ _ _ Hcs).
  apply pull_until_exhausted_run; [exact Hcs |].
  pose proof (filter_shorter p cs). lia.
Qed.

End Pull.

Lemma pull_removes_topmost_match_witness :
  holds the_deck [1; 2; 3; 4; 5] (table [1; 2; 3; 4; 5])
  /\ pull the_deck even (table [1; 2; 3; 4; 5]) =
       (Return (Some 4),
        set_cells 1%positive [1; 2; 3; 5] (table [1; 2; 3; 4; 5])).
Proof.
  assert (Hcs : holds the_deck [1; 2; 3; 4; 5] (table [1; 2; 3; 4; 5]))
    by reflexivity.
  split; [exact Hcs |].
  apply (proj1 (pull_removes_topmost_match
                  the_deck even [1; 2; 3; 4; 5] (table [1; 2; 3; 4; 5]) Hcs)
               [1; 2; 3] 4 [5]).
  - reflexivity.
  - reflexivity.
  - repeat constructor.
Defined.

Lemma pullAll_removes_every_match_witness :
  holds the_deck [1; 2; 3; 4; 5; 6; 7; 8] (table [1; 2; 3; 4; 5; 6; 7; 8])
  /\ pullAll the_deck even (table [1; 2; 3; 4; 5; 6; 7; 8]) =
       (Return [8; 6; 4; 2],
        set_cells 1%positive [1; 3; 5; 7]
                  (table [1; 2; 3; 4; 5; 6; 7; 8])).
Proof.
  assert (Hcs : holds the_deck [1; 2; 3; 4; 5; 6; 7; 8]
                      (table [1; 2; 3; 4; 5; 6; 7; 8])) by reflexivity.
  split; [exact Hcs |].
  exact (pullAll_removes_every_match
           the_deck even [1; 2; 3; 4; 5; 6; 7; 8]
           (table [1; 2; 3; 4; 5; 6; 7; 8]) Hcs).
Defined.

(** ** Where the class departs from its documentation and tests *)

(** C2: the constructor keeps the array it is given. The caller's array
    [1; 2] is at the location 1; after [new Deck(data)], [data.push(3)]
    shows through [toList()], [size()] and [peek()], and a [draw()] on the
    deck removes a card from the caller's array. *)
Theorem constructor_shares_the_array :
  let data := 1%positive in
  let deck := new_Deck data in
  let w0 := table [1; 2] in
  let w1 := set_cells data [1; 2; 3] w0 in
  toList deck w0 = (Return [1; 2], w0)
  /\ Array_push data 3 w0 = (Return tt, w1)
  /\ toList deck w1 = (Return [1; 2; 3], w1)
  /\ size deck w1 = (Return 3%nat, w1)
  /\ peek deck w1 = (Return (Some 3), w1)
  /\ draw deck w0 = (Return (Some 2), set_cells data [1] w0)
  /\ heap (set_cells data [1] w0) !! data = Some [1].
Proof. repeat split. Qed.

(** C9: the generator counts down from the length it read at its first
    step; it does not look at what [draw()] returns. On the deck [1; 2],
    after the first [next()] has yielded 2, a [draw()] from outside
    empties the deck, and the second [next()] yields [null]. On the deck
    [1], after the first [next()] has yielded 1, [placeOnTop(7)] puts a
    card on the deck, and the second [next()] is done while [draw()]
    would return 7. *)
Theorem generator_follows_its_counter :
  (let w0 := table [1; 2] in
   let w1 := set_cells 1%positive [1] w0 in
   let w2 := set_cells 1%positive [] w1 in
   next the_deck NotStarted w0 = (Return (Some (Some 2), Suspended 2), w1)
   /\ draw the_deck w1 = (Return (Some 1), w2)
   /\ next the_deck (Suspended 2) w2
      = (Return (Some None, Suspended 1), w2))
  /\
  (let w0 := table [1] in
   let w1 := set_cells 1%positive [] w0 in
   let w2 := set_cells 1%positive [7] w1 in
   next the_deck NotStarted w0 = (Return (Some (Some 1), Suspended 1), w1)
   /\ placeOnTop the_deck 7 w1 = (Return tt, w2)
   /\ next the_deck (Suspended 1) w2 = (Return (None, Done), w2)
   /\ fst (draw the_deck w2) = Return (Some 7)).
Proof. repeat split. Qed.

(** ** Cases of Deck.test.mts, run on the embedding *)

(** "initializes to empty deck with no args" *)
Example new_deck_is_empty :
  exists deck w',
    new_Deck_default (table [1; 2]) = (Return deck, w')
    /\ isEmpty deck w' = (Return true, w')
    /\ cards deck <> cards the_deck.
Proof. eexists _, _. repeat split. vm_compute. discriminate. Qed.

(** "returns null when there are no cards in the deck" *)
Example draw_on_empty_deck :
  draw the_deck (table []) = (Return None, table [])
  /\ peek the_deck (table []) = (Return None, table []).
Proof. split; reflexivity. Qed.

(** "shuffles deck", with [Math.random()] returning 0.5 *)
Example shuffle_with_one_half :
  fst (shuffle the_deck (table [1; 2; 3; 4])) = Return tt
  /\ heap (snd (shuffle the_deck (table [1; 2; 3; 4]))) !! 1%positive
     = Some [1; 4; 2; 3]
  /\ calls (snd (shuffle the_deck (table [1; 2; 3; 4; 5]))) = 4%nat.
Proof. repeat split. Qed.

(** "filters deck": [remove] leaves the cards that do not match, in a new
    array. *)
Example remove_filters_deck :
  exists deck w',
    remove the_deck (fun c => 2 <? c) (table [1; 2; 3; 4]) = (Return deck, w')
    /\ toList deck w' = (Return [1; 2], w').
Proof. eexists _, _. split; reflexivity. Qed.

(** "adds card to the top of the deck" and to the bottom *)
Example place_on_top_and_bottom :
  heap (snd (placeOnTop the_deck 9 (table [1; 2]))) !! 1%positive
  = Some [1; 2; 9]
  /\ heap (snd (placeOnBottom the_deck 9 (table [1; 2]))) !! 1%positive
     = Some [9; 1; 2].
Proof. split; reflexivity. Qed.

(** ** More of the class: single cards *)

Section TopOfTheDeck.
Context {T : Type} `{Nullable T}.
Implicit Types (w : world T) (this : Deck) (cs : list T) (l : loc).

Lemma draw_run this cs w :
  holds this cs w ->
  draw this w =
    (Return (last cs), set_cells (cards this) (removelast cs) w).
Proof.
  intros Hc. destruct cs as [| c cs' _] using rev_ind.
  - rewrite (draw_empty this w Hc). simpl.
    now rewrite (set_cells_same _ _ _ Hc).
  - rewrite (draw_top this cs' c w Hc).
    now rewrite last_snoc, removelast_last.
Qed.

Lemma peek_run this cs w :
  holds this cs w -> peek this w = (Return (last cs), w).
Proof.
  intros Hc. unfold peek. run_bind (size_holds _ _ _ Hc).
  destruct (decide (length cs = 0%nat)) as [Hlen | _].
  - destruct cs; [reflexivity | discriminate Hlen].
  - unfold Array_at_last. now run_bind (read_holds _ _ _ Hc).
Qed.

Lemma placeOnTop_run this cs (x : T) w :
  holds this cs w ->
  placeOnTop this x w = (Return tt, set_cells (cards this) (cs ++ [x]) w).
Proof.
  intros Hc. unfold placeOnTop, Array_push.
  now run_bind (read_holds _ _ _ Hc).
Qed.


Lemma length_removelast cs : length (removelast cs) = (length cs - 1)%nat.
Proof.
  destruct cs as [| c cs' _] using rev_ind; [reflexivity |].
  rewrite removelast_last, length_app. simpl. lia.
Qed.

(** X1: [draw()] returns the last card of the array and removes it, so
    that [size()] goes down by one; on an empty deck it returns [null] and
    changes nothing, and [size()] stays 0. *)
Theorem draw_takes_the_last_card this cs w :
  holds this cs w ->
  exists w',
    draw this w = (Return (last cs), w')
    /\ holds this (removelast cs) w'
    /\ size this w' = (Return (length cs - 1)%nat, w')
    /\ (cs = [] -> w' = w)
    /\ (forall l, l <> cards this -> heap w' !! l = heap w !! l).
Proof.
  intros Hc. exists (set_cells (cards this) (removelast cs) w).
  split; [exact (draw_run this cs w Hc) |].
  split; [apply holds_set_cells |].
  split.
  - rewrite <- length_removelast. apply size_holds, holds_set_cells.
  - split.
    + intros ->. exact (set_cells_same _ _ _ Hc).
    + intros l Hl. unfold set_cells; simpl.
      now apply lookup_insert_ne.
Qed.

(** X2: [peek()] returns what [draw()] would return, the last card of the
    array or [null] on an empty deck, and leaves the state as it is. *)
Theorem peek_shows_what_draw_returns this cs w :
  holds this cs w ->
  peek this w = (Return (last cs), w)
  /\ fst (peek this w) = fst (draw this w).
Proof.
  intros Hc. rewrite (peek_run this cs w Hc), (draw_run this cs w Hc).
  split; reflexivity.
Qed.


(** X4: placing a drawn card back on top undoes the [draw()]. *)
Theorem draw_then_placeOnTop this cs (c : T) w w1 :
  holds this cs w ->
  draw this w = (Return (Some c), w1) ->
  placeOnTop this c w1 = (Return tt, w).
Proof.
  intros Hc Hdraw. rewrite (draw_run this cs w Hc) in Hdraw.
  injection Hdraw as Hlast <-.
  apply last_Some in Hlast as [cs' ->].
  rewrite removelast_last.
  rewrite (placeOnTop_run this cs' c _ (holds_set_cells this cs' w)).
  rewrite set_cells_twice. now rewrite (set_cells_same _ _ _ Hc).
Qed.


End TopOfTheDeck.

Lemma draw_takes_the_last_card_witness :
  holds the_deck [1; 2; 3] (table [1; 2; 3])
  /\ exists w',
       draw the_deck (table [1; 2; 3]) = (Return (Some 3), w')
       /\ holds the_deck [1; 2] w'
       /\ size the_deck w' = (Return 2%nat, w')
       /\ ([1; 2; 3] = [] -> w' = table [1; 2; 3])
       /\ (forall l, l <> cards the_deck ->
           heap w' !! l = heap (table [1; 2; 3]) !! l).
Proof.
  assert (Hc : holds the_deck [1; 2; 3] (table [1; 2; 3])) by reflexivity.
  split; [exact Hc |].
  exact (draw_takes_the_last_card the_deck [1; 2; 3] (table [1; 2; 3]) Hc).
Defined.

Lemma peek_shows_what_draw_returns_witness :
  holds the_deck [1; 2; 3] (table [1; 2; 3])
  /\ peek the_deck (table [1; 2; 3]) = (Return (Some 3), table [1; 2; 3])
  /\ fst (peek the_deck (table [1; 2; 3]))
     = fst (draw the_deck (table [1; 2; 3])).
Proof.
  assert (Hc : holds the_deck [1; 2; 3] (table [1; 2; 3])) by reflexivity.
  split; [exact Hc |].
  exact (peek_shows_what_draw_returns
           the_deck [1; 2; 3] (table [1; 2; 3]) Hc).
Defined.


Lemma draw_then_placeOnTop_witness :
  holds the_deck [1; 2] (table [1; 2])
  /\ draw the_deck (table [1; 2])
     = (Return (Some 2), set_cells 1%positive [1] (table [1; 2]))
  /\ placeOnTop the_deck 2 (set_cells 1%positive [1] (table [1; 2]))
     = (Return tt, table [1; 2]).
Proof.
  assert (Hc : holds the_deck [1; 2] (table [1; 2])) by reflexivity.
  assert (Hd : draw the_deck (table [1; 2])
               = (Return (Some 2), set_cells 1%positive [1] (table [1; 2])))
    by reflexivity.
  split; [exact Hc | split; [exact Hd |]].
  exact (draw_then_placeOnTop the_deck [1; 2] 2 (table [1; 2]) _ Hc Hd).
Defined.


(** ** More of the class: the array behind the deck *)

Section ArrayOfTheDeck.
Context {T : Type} `{Nullable T}.
Implicit Types (w : world T) (this : Deck) (cs : list T) (l : loc).
Implicit Types (p : T -> bool).

Lemma fresh_is_free w : heap w !! fresh (dom (heap w)) = None.
Proof. apply not_elem_of_dom, is_fresh. Qed.

Lemma remove_run this p cs w :
  holds this cs w ->
  remove this p w =
    (Return {| cards := fresh (dom (heap w)) |},
     set_cells (fresh (dom (heap w)))
               (List.filter (fun c => negb (p c)) cs) w).
Proof.
  intros Hc.
  assert (Hkept : Array_filter (cards this) (fun c => negb (p c)) w
                  = (Return (List.filter (fun c => negb (p c)) cs), w))
    by (unfold Array_filter; now run_bind (read_holds _ _ _ Hc)).
  unfold remove. run_bind Hkept. reflexivity.
Qed.

(** The array that the deck held is not the new one. *)
Lemma held_array_is_not_fresh this cs w :
  holds this cs w -> fresh (dom (heap w)) <> cards this.
Proof.
  intros Hc Heq. pose proof (fresh_is_free w) as Hfree.
  rewrite Heq in Hfree. unfold holds in Hc. congruence.
Qed.

Lemma kept_cards_are_rejected p cs :
  rejects p (List.filter (fun c => negb (p c)) cs).
Proof.
  unfold rejects. induction cs as [| c cs IH]; simpl; [constructor |].
  destruct (p c) eqn:Hp; simpl; [exact IH |].
  constructor; [exact Hp | exact IH].
Qed.

(** X6: [remove(predicate)] leaves in the deck exactly the cards for which
    the predicate is false, in their order, none of which satisfies the
    predicate. It puts them in a new array: every array that existed
    before, the one the deck held included, keeps its contents. *)
Theorem remove_keeps_the_other_cards this p cs w :
  holds this cs w ->
  exists this' w',
    remove this p w = (Return this', w')
    /\ holds this' (List.filter (fun c => negb (p c)) cs) w'
    /\ rejects p (List.filter (fun c => negb (p c)) cs)
    /\ heap w !! cards this' = None
    /\ (forall l, l <> cards this' -> heap w' !! l = heap w !! l)
    /\ heap w' !! cards this = Some cs.
Proof.
  intros Hc. eexists _, _.
  split; [exact (remove_run this p cs w Hc) |].
  split; [apply holds_set_cells |].
  split; [apply kept_cards_are_rejected |].
  split; [apply fresh_is_free |].
  split.
  - intros l Hl. unfold set_cells; simpl.
    apply lookup_insert_ne. exact (not_eq_sym Hl).
  - unfold set_cells; simpl. rewrite lookup_insert_ne; [exact Hc |].
    exact (held_array_is_not_fresh this cs w Hc).
Qed.


(** X8: [isEmpty()] changes nothing and answers true exactly when
    [size()] is 0; [draw()] then returns [null]. The converse needs the
    top card: [draw()] returns [null] exactly when the deck is empty or
    its top card is [null]. *)
Theorem isEmpty_and_null_draws this cs w :
  holds this cs w ->
  snd (isEmpty this w) = w
  /\ (fst (isEmpty this w) = Return true
      <-> fst (size this w) = Return 0%nat)
  /\ (fst (isEmpty this w) = Return true -> fst (draw this w) = Return None)
  /\ (exists v,
        fst (draw this w) = Return v
        /\ (js_null v = true <->
            fst (isEmpty this w) = Return true
            \/ exists c, last cs = Some c /\ is_null c = true)).
Proof.
  intros Hc.
  assert (Hrun : isEmpty this w
                 = (Return (bool_decide (length cs = 0%nat)), w)).
  { unfold isEmpty. fold (@size T this).
    now run_bind (size_holds _ _ _ Hc). }
  rewrite Hrun, (size_holds _ _ _ Hc), (draw_run _ _ _ Hc). cbn [fst snd].
  split; [reflexivity |].
  destruct cs as [| c cs' _] using rev_ind.
  - split; [split; reflexivity |]. split; [reflexivity |].
    exists None. split; [reflexivity |].
    split; [now left | reflexivity].
  - rewrite last_snoc, length_app. simpl.
    replace (length cs' + 1)%nat with (S (length cs')) by lia.
    split; [split; intros Heq; discriminate Heq |].
    split; [intros Heq; discriminate Heq |].
    exists (Some c). split; [reflexivity |]. simpl. split.
    + intros Hnull. right. now exists c.
    + intros [Heq | (c' & Hc' & Hnull)]; [discriminate Heq |].
      now injection Hc' as ->.
Qed.

(** X9: [new Deck()] is an empty deck on an array of its own: the array
    is new, and every array that existed keeps its contents. *)
Theorem new_deck_has_its_own_array w :
  exists deck w',
    new_Deck_default w = (Return deck, w')
    /\ holds deck [] w'
    /\ isEmpty deck w' = (Return true, w')
    /\ heap w !! cards deck = None
    /\ (forall l, l <> cards deck -> heap w' !! l = heap w !! l).
Proof.
  eexists _, _. split; [reflexivity |].
  assert (Hc : holds (new_Deck (fresh (dom (heap w))))
                     [] (set_cells (fresh (dom (heap w))) [] w))
    by apply (holds_set_cells (new_Deck _)).
  split; [exact Hc |].
  split.
  - unfold isEmpty. fold (@size T (new_Deck (fresh (dom (heap w))))).
    now run_bind (size_holds _ _ _ Hc).
  - split; [apply fresh_is_free |].
    intros l Hl. unfold set_cells; simpl.
    apply lookup_insert_ne. exact (not_eq_sym Hl).
Qed.


End ArrayOfTheDeck.

Lemma remove_keeps_the_other_cards_witness :
  holds the_deck [1; 2; 3; 4] (table [1; 2; 3; 4])
  /\ exists this' w',
       remove the_deck even (table [1; 2; 3; 4]) = (Return this', w')
       /\ holds this' (List.filter (fun c => negb (even c)) [1; 2; 3; 4]) w'
       /\ rejects even (List.filter (fun c => negb (even c)) [1; 2; 3; 4])
       /\ heap (table [1; 2; 3; 4]) !! cards this' = None
       /\ (forall l, l <> cards this' ->
           heap w' !! l = heap (table [1; 2; 3; 4]) !! l)
       /\ heap w' !! cards the_deck = Some [1; 2; 3; 4].
Proof.
  assert (Hc : holds the_deck [1; 2; 3; 4] (table [1; 2; 3; 4]))
    by reflexivity.
  split; [exact Hc |].
  exact (remove_keeps_the_other_cards
           the_deck even [1; 2; 3; 4] (table [1; 2; 3; 4]) Hc).
Defined.


Lemma isEmpty_and_null_draws_witness :
  holds the_deck [Some 1; None] (nullable_table [Some 1; None])
  /\ snd (isEmpty the_deck (nullable_table [Some 1; None]))
     = nullable_table [Some 1; None]
  /\ (fst (isEmpty the_deck (nullable_table [Some 1; None])) = Return true
      <-> fst (size the_deck (nullable_table [Some 1; None]))
          = Return 0%nat)
  /\ (fst (isEmpty the_deck (nullable_table [Some 1; None])) = Return true
      -> fst (draw the_deck (nullable_table [Some 1; None])) = Return None)
  /\ (exists v,
        fst (draw the_deck (nullable_table [Some 1; None])) = Return v
        /\ (js_null v = true <->
            fst (isEmpty the_deck (nullable_table [Some 1; None]))
            = Return true
            \/ exists c, last [Some 1; None] = Some c /\ is_null c = true)).
Proof.
  assert (Hc : holds the_deck [Some 1; None]
                     (nullable_table [Some 1; None])) by reflexivity.
  split; [exact Hc |].
  exact (isEmpty_and_null_draws
           the_deck [Some 1; None] (nullable_table [Some 1; None]) Hc).
Defined.

(** On the deck [1; null], [draw()] returns [null] although [isEmpty()]
    is false. *)
Example null_top_card_is_drawn_as_null :
  isEmpty the_deck (nullable_table [Some 1; None])
  = (Return false, nullable_table [Some 1; None])
  /\ fst (draw the_deck (nullable_table [Some 1; None])) = Return (Some None)
  /\ js_null (Some (@None Z)) = true.
Proof. repeat split. Qed.


(** ** More of the class: several cards *)

Section SeveralCards.
Context {T : Type} `{Nullable T}.
Implicit Types (w : world T) (this : Deck) (cs : list T) (l : loc).

(** [drawMany] on a deck given top card first. *)
Lemma drawMany_top_first this (top_first : list T) w (n : Z) :
  holds this (reverse top_first) w -> 0 <= n <= max_array_length ->
  drawMany this n w =
    (Return (without_nulls (take (Z.to_nat n) top_first)),
     set_cells (cards this) (reverse (drop (Z.to_nat n) top_first)) w).
Proof.
  intros Hc Hn. unfold drawMany.
  destruct (decide (n < 0)) as [Hneg | _]; [lia |].
  unfold Array_from_length.
  destruct (decide (max_array_length < n)) as [Hbig | _]; [lia |].
  run_bind (repeat_draw this _ _ _ Hc).
  unfold ret. now rewrite filter_not_null_draws.
Qed.

(** X11: for counts [a] and [b] whose sum is at most [2^32 - 1], drawing
    [a] cards and then [b] cards gives, one hand after the other, the
    cards that drawing [a + b] cards at once gives, and leaves the same
    state. *)
Theorem drawMany_in_two_hands this cs w (a b : Z) :
  holds this cs w -> 0 <= a -> 0 <= b -> a + b <= max_array_length ->
  exists xs w1 ys w2,
    drawMany this a w = (Return xs, w1)
    /\ drawMany this b w1 = (Return ys, w2)
    /\ drawMany this (a + b) w = (Return (xs ++ ys), w2).
Proof.
  intros Hc Ha Hb Hmax.
  rewrite <- (reverse_involutive cs) in Hc.
  set (top_first := reverse cs) in *.
  pose proof (holds_set_cells this
                (reverse (drop (Z.to_nat a) top_first)) w) as Hc1.
  eexists _, _, _, _.
  split; [exact (drawMany_top_first this top_first w a Hc ltac:(lia)) |].
  split; [exact (drawMany_top_first this _ _ b Hc1 ltac:(lia)) |].
  rewrite (drawMany_top_first this top_first w (a + b) Hc) by lia.
  rewrite set_cells_twice, drop_drop.
  unfold without_nulls. rewrite <- List.filter_app, take_take_drop.
  now rewrite Z2Nat.inj_add by lia.
Qed.

(** X12: [peekMany(0)] returns the whole deck, as [peekMany(n)] does for
    every [n] that is at least the number of cards: [slice(-0)] is
    [slice(0)]. The state is unchanged. *)
Theorem peekMany_zero_shows_every_card this cs w (n : Z) :
  holds this cs w ->
  n = 0 \/ Z.of_nat (length cs) <= n ->
  peekMany this n w = (Return cs, w).
Proof.
  intros Hc Hn. rewrite (peekMany_run this cs w n Hc) by lia.
  destruct (decide (n = 0)) as [_ | Hnz]; [reflexivity |].
  replace (length cs - Z.to_nat n)%nat with 0%nat by lia.
  reflexivity.
Qed.

Lemma last_drop cs (k : nat) :
  (k < length cs)%nat -> last (drop k cs) = last cs.
Proof.
  intros Hk. rewrite !last_lookup, lookup_drop, length_drop.
  f_equal. lia.
Qed.

(** X13: for a count [n > 0], the last element of what [peekMany(n)]
    returns is the card that [peek()] returns; both find nothing on an
    empty deck. *)
Theorem peekMany_ends_with_the_top_card this cs w (n : Z) :
  holds this cs w -> 0 < n ->
  exists xs,
    peekMany this n w = (Return xs, w)
    /\ peek this w = (Return (last xs), w).
Proof.
  intros Hc Hn. eexists. split.
  - rewrite (peekMany_run this cs w n Hc) by lia.
    destruct (decide (n = 0)) as [Hz | _]; [lia | reflexivity].
  - rewrite (peek_run this cs w Hc). do 2 f_equal.
    destruct cs as [| c cs']; [reflexivity |].
    symmetry. apply last_drop. simpl. lia.
Qed.


(** X15: a suspended generator decides on its counter alone. With a
    counter above 1 it yields what [draw()] returns on the deck as it is
    now, the top card or [null] if the deck is empty, and counts down;
    with the counter at 1 it is done, whatever the deck holds. *)
Theorem suspended_generator_counts_down this cs w (i : nat) :
  holds this cs w ->
  ((1 < i)%nat ->
   next this (Suspended i) w =
     (Return (Some (last cs), Suspended (i - 1)),
      set_cells (cards this) (removelast cs) w))
  /\ ((i <= 1)%nat -> next this (Suspended i) w = (Return (None, Done), w)).
Proof.
  intros Hc. split; intros Hi; cbn [next]; unfold enter_loop.
  - destruct (decide (0 < i - 1)%nat) as [_ | Hn]; [| lia].
    now run_bind (draw_run this cs w Hc).
  - destruct (decide (0 < i - 1)%nat) as [Hp | _]; [lia | reflexivity].
Qed.

End SeveralCards.

Lemma drawMany_in_two_hands_witness :
  holds the_deck [1; 2; 3; 4] (table [1; 2; 3; 4]) /\ 0 <= 1 /\ 0 <= 2
  /\ 1 + 2 <= max_array_length
  /\ exists xs w1 ys w2,
       drawMany the_deck 1 (table [1; 2; 3; 4]) = (Return xs, w1)
       /\ drawMany the_deck 2 w1 = (Return ys, w2)
       /\ drawMany the_deck (1 + 2) (table [1; 2; 3; 4])
          = (Return (xs ++ ys), w2).
Proof.
  assert (Hc : holds the_deck [1; 2; 3; 4] (table [1; 2; 3; 4]))
    by reflexivity.
  assert (Ha : 0 <= 1) by lia.
  assert (Hb : 0 <= 2) by lia.
  assert (Hmax : 1 + 2 <= max_array_length)
    by (unfold max_array_length; lia).
  split; [exact Hc | split; [exact Ha | split; [exact Hb |]]].
  split; [exact Hmax |].
  exact (drawMany_in_two_hands
           the_deck [1; 2; 3; 4] (table [1; 2; 3; 4]) 1 2 Hc Ha Hb Hmax).
Defined.

Lemma peekMany_zero_shows_every_card_witness :
  holds the_deck [1; 2; 3] (table [1; 2; 3])
  /\ (0 = 0 \/ Z.of_nat (length [1; 2; 3]) <= 0)
  /\ peekMany the_deck 0 (table [1; 2; 3])
     = (Return [1; 2; 3], table [1; 2; 3]).
Proof.
  assert (Hc : holds the_deck [1; 2; 3] (table [1; 2; 3])) by reflexivity.
  assert (Hn : 0 = 0 \/ Z.of_nat (length [1; 2; 3]) <= 0)
    by (left; reflexivity).
  split; [exact Hc | split; [exact Hn |]].
  exact (peekMany_zero_shows_every_card
           the_deck [1; 2; 3] (table [1; 2; 3]) 0 Hc Hn).
Defined.

Lemma peekMany_ends_with_the_top_card_witness :
  holds the_deck [1; 2; 3] (table [1; 2; 3]) /\ 0 < 2
  /\ exists xs,
       peekMany the_deck 2 (table [1; 2; 3]) = (Return xs, table [1; 2; 3])
       /\ peek the_deck (table [1; 2; 3])
          = (Return (last xs), table [1; 2; 3]).
Proof.
  assert (Hc : holds the_deck [1; 2; 3] (table [1; 2; 3])) by reflexivity.
  assert (Hn : 0 < 2) by lia.
  split; [exact Hc | split; [exact Hn |]].
  exact (peekMany_ends_with_the_top_card
           the_deck [1; 2; 3] (table [1; 2; 3]) 2 Hc Hn).
Defined.


Lemma suspended_generator_counts_down_witness :
  holds the_deck [] (table [])
  /\ ((1 < 2)%nat ->
      next the_deck (Suspended 2) (table [])
      = (Return (Some None, Suspended 1),
         set_cells 1%positive [] (table [])))
  /\ ((2 <= 1)%nat ->
      next the_deck (Suspended 2) (table []) = (Return (None, Done), table [])).
Proof.
  assert (Hc : holds the_deck [] (table [])) by reflexivity.
  split; [exact Hc |].
  exact (suspended_generator_counts_down the_deck [] (table []) 2 Hc).
Defined.

(** ** More of [shuffle] *)

Section MoreShuffle.
Context {T : Type}.
Implicit Types (w : world T) (this : Deck) (cs : list T) (l : loc).

(** X16: [shuffle()] writes only in the array of the deck: every other
    array keeps its contents, and the values that the random source will
    give are the same as before. *)
Theorem shuffle_touches_only_its_array this cs w :
  holds this cs w -> (forall k, unit_interval (entropy w k)) ->
  exists w',
    shuffle this w = (Return tt, w')
    /\ entropy w' = entropy w
    /\ (forall l, l <> cards this -> heap w' !! l = heap w !! l).
Proof.
  intros Hc Hunit. eexists.
  split; [exact (shuffle_run this cs w Hc Hunit) |].
  split; [reflexivity |].
  intros l Hl. simpl. now apply lookup_insert_ne.
Qed.

(** X19: [shuffle()] returns, and the deck it leaves is the deck before
    it on which the rounds [i = n - 1, ..., 1] have each swapped the card
    at [i] with the card at an index of [[0, i]]; [n - 1] values of the
    random source are consumed, and on a deck of at most one card nothing
    changes. *)
Theorem shuffle_swaps_downwards this cs w :
  holds this cs w -> (forall k, unit_interval (entropy w k)) ->
  exists pick : nat -> nat,
    (forall i, (pick i <= i)%nat)
    /\ shuffle this w =
         (Return tt,
          {| heap := <[cards this := fisher_yates pick cs]> (heap w);
             entropy := entropy w;
             calls := (calls w + (length cs - 1))%nat |})
    /\ ((length cs <= 1)%nat -> shuffle this w = (Return tt, w)).
Proof.
  intros Hc Hunit.
  exists (fun i => Z.to_nat (picked (entropy w) (calls w)
                                    (length cs - 1) i)).
  split; [| split].
  - intros i. unfold picked.
    pose proof (drawn_index_range _ i (Hunit (calls w + (length cs - 1 - i))%nat)).
    lia.
  - exact (shuffle_run this cs w Hc Hunit).
  - intros Hsmall. unfold shuffle.
    fold (@size T this). run_bind (size_holds _ _ _ Hc).
    now replace (length cs - 1)%nat with 0%nat by lia.
Qed.

Lemma swap_same (i : nat) cs : swap i i cs = cs.
Proof.
  unfold swap. destruct (cs !! i) as [c |] eqn:Hi; [| reflexivity].
  now rewrite !(list_insert_id _ _ _ Hi).
Qed.

Lemma swaps_with_itself (pick : nat -> nat) (rounds : list nat) cs :
  Forall (fun i => pick i = i) rounds ->
  foldl (fun acc i => swap i (pick i) acc) cs rounds = cs.
Proof.
  induction 1 as [| i rounds Hi _ IH]; simpl; [reflexivity |].
  now rewrite Hi, swap_same.
Qed.

(** A value of the last of [n] equal cells of [[0, 1)] draws the index
    [i] itself at every round [i < n]. *)
Lemma high_value_draws_the_index (r : Q) (n i : nat) :
  unit_interval r ->
  (1 - 1 / inject_Z (Z.of_nat n) <= r)%Q ->
  (i < n)%nat ->
  drawn_index r i = Z.of_nat i.
Proof.
  intros [Hlo Hhi] Hhigh Hi.
  apply Z.le_antisymm; [apply drawn_index_range; now split |].
  unfold drawn_index, Math_floor.
  rewrite <- (Qfloor_Z (Z.of_nat i)) at 1. apply Qfloor_resp_le.
  set (a := inject_Z (Z.of_nat i + 1)).
  set (d := inject_Z (Z.of_nat n - (Z.of_nat i + 1))).
  assert (Hn : (inject_Z (Z.of_nat n) == a + d)%Q).
  { unfold a, d. rewrite <- inject_Z_plus. f_equiv. lia. }
  assert (Hi1 : (inject_Z (Z.of_nat i) == a - 1)%Q).
  { unfold a. rewrite inject_Z_plus. change (inject_Z 1) with 1%Q. ring. }
  assert (Ha : (0 < a)%Q) by apply slots_positive.
  assert (Hd : (0 <= d)%Q).
  { unfold d. change 0%Q with (inject_Z 0). rewrite <- Zle_Qle. lia. }
  assert (Hrd : (r * d <= d)%Q).
  { rewrite <- (Qmult_1_l d) at 2.
    apply Qmult_le_compat_r; [now apply Qlt_le_weak | exact Hd]. }
  assert (Hscaled : ((a + d) - 1 <= r * (a + d))%Q).
  { rewrite Hn in Hhigh.
    assert (Hpos : (0 < a + d)%Q) by lra.
    apply (Qmult_le_compat_r _ _ (a + d)) in Hhigh; [| lra].
    assert (Heq : ((1 - 1 / (a + d)) * (a + d) == (a + d) - 1)%Q)
      by (field; lra).
    now rewrite Heq in Hhigh. }
  clearbody a d. lra.
Qed.

(** X17: when every value of the random source lies in the last of the
    [n] equal cells of [[0, 1)], that is, is at least [1 - 1/n] for a deck
    of [n] cards, every round of [shuffle()] swaps a card with itself: the
    deck keeps its order, and [n - 1] values are consumed all the same. *)
Theorem shuffle_with_high_values_keeps_the_order this cs w :
  holds this cs w ->
  (forall k, unit_interval (entropy w k)) ->
  (forall k,
     (1 - 1 / inject_Z (Z.of_nat (length cs)) <= entropy w k)%Q) ->
  shuffle this w =
    (Return tt,
     {| heap := heap w; entropy := entropy w;
        calls := (calls w + (length cs - 1))%nat |}).
Proof.
  intros Hc Hunit Hhigh.
  rewrite (shuffle_run this cs w Hc Hunit). unfold fisher_yates.
  rewrite swaps_with_itself.
  - now rewrite (insert_id _ _ _ Hc).
  - apply Forall_forall. intros i Hin.
    rewrite elem_of_reverse, elem_of_seq in Hin.
    unfold picked.
    rewrite (high_value_draws_the_index _ (length cs) i
               (Hunit _) (Hhigh _)) by lia.
    apply Nat2Z.id.
Qed.

End MoreShuffle.

Lemma shuffle_touches_only_its_array_witness :
  holds the_deck [1; 2; 3; 4] (table [1; 2; 3; 4])
  /\ (forall k, unit_interval (entropy (table [1; 2; 3; 4]) k))
  /\ exists w',
       shuffle the_deck (table [1; 2; 3; 4]) = (Return tt, w')
       /\ entropy w' = entropy (table [1; 2; 3; 4])
       /\ (forall l, l <> cards the_deck ->
           heap w' !! l = heap (table [1; 2; 3; 4]) !! l).
Proof.
  assert (Hc : holds the_deck [1; 2; 3; 4] (table [1; 2; 3; 4]))
    by reflexivity.
  split; [exact Hc | split; [apply table_entropy |]].
  exact (shuffle_touches_only_its_array
           the_deck [1; 2; 3; 4] (table [1; 2; 3; 4])
           Hc (table_entropy [1; 2; 3; 4])).
Defined.

Lemma shuffle_swaps_downwards_witness :
  holds the_deck [1; 2; 3; 4] (table [1; 2; 3; 4])
  /\ (forall k, unit_interval (entropy (table [1; 2; 3; 4]) k))
  /\ exists pick : nat -> nat,
       (forall i, (pick i <= i)%nat)
       /\ shuffle the_deck (table [1; 2; 3; 4]) =
            (Return tt,
             {| heap := <[cards the_deck := fisher_yates pick [1; 2; 3; 4]]>
                          (heap (table [1; 2; 3; 4]));
                entropy := entropy (table [1; 2; 3; 4]);
                calls := 3%nat |})
       /\ ((4 <= 1)%nat ->
           shuffle the_deck (table [1; 2; 3; 4])
           = (Return tt, table [1; 2; 3; 4])).
Proof.
  assert (Hc : holds the_deck [1; 2; 3; 4] (table [1; 2; 3; 4]))
    by reflexivity.
  split; [exact Hc | split; [apply table_entropy |]].
  exact (shuffle_swaps_downwards
           the_deck [1; 2; 3; 4] (table [1; 2; 3; 4])
           Hc (table_entropy [1; 2; 3; 4])).
Defined.

Lemma table_of_two_is_high (k : nat) :
  (1 - 1 / inject_Z 2 <= entropy (table (1 :: 2 :: nil)%Z) k)%Q.
Proof. unfold Qle; simpl. lia. Qed.

Lemma shuffle_with_high_values_keeps_the_order_witness :
  holds the_deck [1; 2] (table [1; 2])
  /\ (forall k, unit_interval (entropy (table [1; 2]) k))
  /\ (forall k,
        (1 - 1 / inject_Z 2 <= entropy (table (1 :: 2 :: nil)%Z) k)%Q)
  /\ shuffle the_deck (table [1; 2]) =
       (Return tt,
        {| heap := heap (table [1; 2]); entropy := entropy (table [1; 2]);
           calls := 1 |}).
Proof.
  assert (Hc : holds the_deck [1; 2] (table [1; 2])) by reflexivity.
  split; [exact Hc | split; [apply table_entropy |]].
  split; [exact table_of_two_is_high |].
  exact (shuffle_with_high_values_keeps_the_order
           the_deck [1; 2] (table [1; 2])
           Hc (table_entropy [1; 2]) table_of_two_is_high).
Defined.

(** ** [remove] after [remove] *)

Section RemoveTwice.
Context {T : Type}.
Implicit Types (w : world T) (this : Deck) (cs : list T).
Implicit Types (p q : T -> bool).

Lemma filter_twice (f g : T -> bool) cs :
  List.filter g (List.filter f cs) = List.filter (fun c => f c && g c) cs.
Proof.
  induction cs as [| c cs IH]; simpl; [reflexivity |].
  destruct (f c); simpl; [| exact IH].
  destruct (g c); simpl; now rewrite IH.
Qed.

(** X18: [remove(p)] followed by [remove(q)] leaves the cards that satisfy
    neither predicate, in their order; a second [remove(p)] removes
    nothing more. *)
Theorem remove_after_remove this p q cs w :
  holds this cs w ->
  exists this1 w1,
    remove this p w = (Return this1, w1)
    /\ (exists this2 w2,
          remove this1 q w1 = (Return this2, w2)
          /\ toList this2 w2
             = (Return (List.filter (fun c => negb (p c) && negb (q c)) cs),
                w2))
    /\ (exists this3 w3,
          remove this1 p w1 = (Return this3, w3)
          /\ toList this3 w3
             = (Return (List.filter (fun c => negb (p c)) cs), w3)).
Proof.
  intros Hc. eexists _, _.
  split; [exact (remove_run this p cs w Hc) |].
  set (this1 := {| cards := fresh (dom (heap w)) |}).
  set (kept := List.filter (fun c => negb (p c)) cs).
  assert (Hc1 : holds this1 kept (set_cells (cards this1) kept w))
    by apply holds_set_cells.
  split.
  - eexists _, _. split; [exact (remove_run this1 q kept _ Hc1) |].
    rewrite <- (filter_twice (fun c => negb (p c)) (fun c => negb (q c))).
    apply read_holds. unfold set_cells; simpl. apply lookup_insert_eq.
  - eexists _, _. split; [exact (remove_run this1 p kept _ Hc1) |].
    assert (Hsame : List.filter (fun c => negb (p c)) kept = kept).
    { unfold kept. rewrite filter_twice.
      apply List.filter_ext. intros c. now destruct (p c). }
    unfold toList.
    rewrite (read_holds _ (List.filter (fun c => negb (p c)) kept) _);
      [now rewrite Hsame |].
    unfold set_cells; simpl. apply lookup_insert_eq.
Qed.

End RemoveTwice.

Lemma remove_after_remove_witness :
  holds the_deck [1; 2; 3; 4] (table [1; 2; 3; 4])
  /\ exists this1 w1,
       remove the_deck even (table [1; 2; 3; 4]) = (Return this1, w1)
       /\ (exists this2 w2,
             remove this1 (fun c => 2 <? c) w1 = (Return this2, w2)
             /\ toList this2 w2
                = (Return (List.filter
                             (fun c => negb (even c) && negb (2 <? c))
                             [1; 2; 3; 4]), w2))
       /\ (exists this3 w3,
             remove this1 even w1 = (Return this3, w3)
             /\ toList this3 w3
                = (Return (List.filter (fun c => negb (even c))
                                       [1; 2; 3; 4]), w3)).
Proof.
  assert (Hc : holds the_deck [1; 2; 3; 4] (table [1; 2; 3; 4]))
    by reflexivity.
  split; [exact Hc |].
  exact (remove_after_remove
           the_deck even (fun c => 2 <? c) [1; 2; 3; 4]
           (table [1; 2; 3; 4]) Hc).
Defined.
